(** * PaliGemma inference: the decode loop and the token samplers

    A shallow embedding of [src/PaliGemma/inference.py]: the greedy and
    nucleus (top-p) samplers and the autoregressive loop of
    [test_inference], with the properties of the specification proved
    about them.

    Tensors of floats are modelled by lists of rationals ([Q]), so every
    statement below is about exact arithmetic; equality of probabilities
    is [Qeq] ([==]).  The batch dimension, which the code asserts to be
    of size one, is dropped. *)

From Stdlib Require Import String.
From Stdlib Require Import List Bool Arith ZArith QArith Lia Lqa.
From Stdlib Require Import Permutation Sorted.
Import ListNotations.

Local Open Scope Q_scope.

(** ** Failures

    Python exceptions become values of [Error]; a computation that may
    raise returns a [result]. *)

Inductive Error : Type :=
| EmptyReduction      (* argmax / indexing over a dimension of size 0 *)
| ZeroSum             (* renormalisation by a sum equal to zero *)
| InvalidDistribution (* torch.multinomial rejects its weights *)
| DrawOutOfRange      (* the uniform draw is not in [0, 1) *)
| IndexOutOfRange     (* torch.gather with a rank past the end *)
| EmptyCat            (* torch.cat of an empty list of tensors *)
| ModelFailure.       (* the forward pass raised *)

Inductive result (A : Type) : Type :=
| Ok (a : A)
| Err (e : Error).

Arguments Ok {A} a.
Arguments Err {A} e.

Definition bind {A B : Type} (r : result A) (k : A -> result B) : result B :=
  match r with
  | Ok a => k a
  | Err e => Err e
  end.

Notation "x <- r ;; k" := (bind r (fun x => k))
  (at level 61, r at next level, right associativity).

(** ** Tensor primitives *)

Definition Qlt_bool (a b : Q) : bool := negb (Qle_bool b a).

Fixpoint Qsum (l : list Q) : Q :=
  match l with
  | [] => 0
  | x :: l' => x + Qsum l'
  end.

(** [torch.argmax]: the index of the first maximal value. *)
Fixpoint argmax_from (best : nat) (bestv : Q) (i : nat) (l : list Q) : nat :=
  match l with
  | [] => best
  | x :: l' =>
      if Qlt_bool bestv x then argmax_from i x (S i) l'
      else argmax_from best bestv (S i) l'
  end.

Definition argmax (scores : list Q) : result nat :=
  match scores with
  | [] => Err EmptyReduction
  | x :: l => Ok (argmax_from 0%nat x 1%nat l)
  end.

(** [torch.sort(..., descending=True)]: values paired with their original
    positions, sorted by value, largest first.  Insertion keeps equal
    values in their original order; the properties proved below use only
    that the result is a permutation of the input in descending order,
    so they do not depend on how ties are ordered. *)
Fixpoint insert_desc (a : Q * nat) (l : list (Q * nat)) : list (Q * nat) :=
  match l with
  | [] => [a]
  | b :: l' =>
      if Qlt_bool (fst a) (fst b) then b :: insert_desc a l'
      else a :: l
  end.

Fixpoint sort_desc (l : list (Q * nat)) : list (Q * nat) :=
  match l with
  | [] => []
  | a :: l' => insert_desc a (sort_desc l')
  end.

Definition enumerate (probs : list Q) : list (Q * nat) :=
  combine probs (seq 0 (length probs)).

Definition torch_sort (probs : list Q) : list Q * list nat :=
  let sorted := sort_desc (enumerate probs) in
  (map fst sorted, map snd sorted).

(** [torch.cumsum]: inclusive running sums. *)
Fixpoint cumsum_from (acc : Q) (l : list Q) : list Q :=
  match l with
  | [] => []
  | x :: l' => (acc + x) :: cumsum_from (acc + x) l'
  end.

Definition cumsum (l : list Q) : list Q := cumsum_from 0 l.

(** [probs_sum - probs_sort > p], elementwise. *)
Definition exceeds_mask (probs_sum probs_sort : list Q) (p : Q) : list bool :=
  map (fun sx => Qlt_bool p (fst sx - snd sx)) (combine probs_sum probs_sort).

(** [t[mask] = v]. *)
Definition masked_fill (t : list Q) (mask : list bool) (v : Q) : list Q :=
  map (fun xm => if snd xm : bool then v else fst xm) (combine t mask).

(** [t.div_(total)]: in floating point a zero [total] fills the tensor
    with NaN, which the draw that follows rejects; here the failure is
    raised at the division. *)
Definition div_ (t : list Q) (total : Q) : result (list Q) :=
  if Qeq_bool total 0 then Err ZeroSum
  else Ok (map (fun x => x / total) t).

(** [torch.multinomial(w, num_samples=1)]: a weighted draw of one rank.
    The weights must be non-negative with a positive sum; the rank is
    found by inverting the cumulative distribution at a uniform draw
    [u] in [0, 1). *)
Fixpoint inverse_cdf (w : list Q) (target : Q) (rank : nat) : option nat :=
  match w with
  | [] => None
  | x :: w' =>
      if Qlt_bool target x then Some rank
      else inverse_cdf w' (target - x) (S rank)
  end.

Definition multinomial (w : list Q) (u : Q) : result nat :=
  if existsb (fun x => Qlt_bool x 0) w then Err InvalidDistribution
  else if Qle_bool (Qsum w) 0 then Err InvalidDistribution
  else if Qlt_bool u 0 then Err DrawOutOfRange
  else match inverse_cdf w (u * Qsum w) 0%nat with
       | Some r => Ok r
       | None => Err DrawOutOfRange
       end.

(** [torch.gather(idx, -1, r)] for a single rank. *)
Definition gather (idx : list nat) (r : nat) : result nat :=
  match nth_error idx r with
  | Some t => Ok t
  | None => Err IndexOutOfRange
  end.

(** ** The nucleus sampler, [_sample_top_p] *)

(** Lines 93-96: sort, running sums, mask, zeroing. *)
Definition truncate_top_p (probs : list Q) (p : Q) : list Q * list nat :=
  let '(probs_sort, probs_idx) := torch_sort probs in
  let probs_sum := cumsum probs_sort in
  let mask := exceeds_mask probs_sum probs_sort p in
  (masked_fill probs_sort mask 0, probs_idx).

(** Lines 93-97: the distribution the draw is made from. *)
Definition nucleus_distribution (probs : list Q) (p : Q)
  : result (list Q * list nat) :=
  let '(probs_sort, probs_idx) := truncate_top_p probs p in
  probs_sort <- div_ probs_sort (Qsum probs_sort) ;;
  Ok (probs_sort, probs_idx).

Definition _sample_top_p (probs : list Q) (p : Q) (u : Q) : result nat :=
  d <- nucleus_distribution probs p ;;
  next_token <- multinomial (fst d) u ;;
  gather (snd d) next_token.

(** The mask computed on line 95. *)
Definition top_p_mask (probs : list Q) (p : Q) : list bool :=
  let probs_sort := fst (torch_sort probs) in
  exceeds_mask (cumsum probs_sort) probs_sort p.

(** The probability that a distribution over ranks, given as pairs of a
    weight and the token id of the rank, gives to token [t]. *)
Fixpoint token_weight (d : list (Q * nat)) (t : nat) : Q :=
  match d with
  | [] => 0
  | (v, i) :: d' => (if Nat.eqb i t then v else 0) + token_weight d' t
  end.

(** ** The decode loop of [test_inference] *)

(** Lines 65-69: the choice between the two strategies. *)
Definition select_next_token (softmax : list Q -> list Q)
    (do_sample : bool) (temperature top_p u : Q)
    (next_token_logits : list Q) : result nat :=
  if do_sample then
    let probs := softmax (map (fun x => x / temperature) next_token_logits) in
    _sample_top_p probs top_p u
  else argmax next_token_logits.

(** [logits[:, -1, :]]: the scores at the last position. *)
Definition last_position (logits : list (list Q)) : result (list Q) :=
  match logits with
  | [] => Err EmptyReduction
  | _ :: _ => Ok (last logits [])
  end.

(** [torch.cat] of the list of one-element token tensors. *)
Definition torch_cat (tokens : list nat) : result (list nat) :=
  match tokens with
  | [] => Err EmptyCat
  | _ :: _ => Ok tokens
  end.

Section Inference.

(** The collaborators of the loop: the key-value cache and the pixel
    tensor are opaque, the model is a forward function that may fail,
    [softmax] stands for [torch.softmax], [rand] gives the uniform draw
    that the global generator hands to the k-th call of the sampler,
    and [decode] is the tokenizer's decoder. *)
Variables Cache Pixels : Type.

Record ModelOutput : Type := {
  logits : list (list Q);
  kv_cache : Cache
}.

Record ModelInputs : Type := {
  input_ids : list nat;
  attention_mask : list Q;
  pixel_values : Pixels
}.

Variable model : list nat -> Pixels -> list Q -> Cache -> result ModelOutput.
Variable softmax : list Q -> list Q.
Variable rand : nat -> Q.
Variable decode : list nat -> string.
Variable new_cache : Cache.

(** The arguments of [test_inference]; [model_inputs] is what
    [get_model_inputs] returns for the prompt and the image, and
    [stop_token] is the tokenizer's [eos_token_id]. *)
Variable model_inputs : ModelInputs.
Variable prompt : string.
Variable stop_token : nat.
Variables temperature top_p : Q.
Variable do_sample : bool.

(** The variables the loop assigns. *)
Record LoopState : Type := {
  st_input_ids : list nat;
  st_attention_mask : list Q;
  st_kv_cache : Cache;
  generated_tokens : list nat
}.

Inductive Flow : Type :=
| Break (st : LoopState)
| Continue (st : LoopState).

Definition flow_state (f : Flow) : LoopState :=
  match f with
  | Break st => st
  | Continue st => st
  end.

Definition initial_state : LoopState :=
  {| st_input_ids := input_ids model_inputs;
     st_attention_mask := attention_mask model_inputs;
     st_kv_cache := new_cache;
     generated_tokens := [] |}.

(** Lines 54-83: one iteration, drawing [u] if it samples. *)
Definition loop_body (u : Q) (st : LoopState) : result Flow :=
  outputs <- model (st_input_ids st) (pixel_values model_inputs)
                   (st_attention_mask st) (st_kv_cache st) ;;
  next_token_logits <- last_position (logits outputs) ;;
  next_token <- select_next_token softmax do_sample temperature top_p u
                  next_token_logits ;;
  let generated := generated_tokens st ++ [next_token] in
  if Nat.eqb next_token stop_token then
    Ok (Break {| st_input_ids := st_input_ids st;
                 st_attention_mask := st_attention_mask st;
                 st_kv_cache := kv_cache outputs;
                 generated_tokens := generated |})
  else
    Ok (Continue {| st_input_ids := [next_token];
                    st_attention_mask := st_attention_mask st ++ [1];
                    st_kv_cache := kv_cache outputs;
                    generated_tokens := generated |}).

(** Line 53: [for _ in range(n)], from iteration number [step]. *)
Fixpoint decode_loop (n : nat) (step : nat) (st : LoopState)
  : result LoopState :=
  match n with
  | O => Ok st
  | S n' =>
      match loop_body (rand step) st with
      | Err e => Err e
      | Ok (Break st') => Ok st'
      | Ok (Continue st') => decode_loop n' (S step) st'
      end
  end.

(** The outcome of every iteration the loop executes, in order. *)
Fixpoint decode_trace (n : nat) (step : nat) (st : LoopState)
  : list (result Flow) :=
  match n with
  | O => []
  | S n' =>
      let r := loop_body (rand step) st in
      r :: match r with
           | Ok (Continue st') => decode_trace n' (S step) st'
           | _ => []
           end
  end.

(** Lines 43-85: the generated token ids handed to the decoder. *)
Definition generate_tokens (max_tokens_to_generate : Z)
  : result (list nat) :=
  st <- decode_loop (Z.to_nat max_tokens_to_generate) 0%nat initial_state ;;
  torch_cat (generated_tokens st).

(** The text [test_inference] prints. *)
Definition test_inference (max_tokens_to_generate : Z) : result string :=
  tokens <- generate_tokens max_tokens_to_generate ;;
  Ok (prompt ++ decode tokens)%string.

(** The iterations of a run and the state after the k-th of them. *)
Definition run_trace (max_tokens_to_generate : Z) : list (result Flow) :=
  decode_trace (Z.to_nat max_tokens_to_generate) 0%nat initial_state.

Definition state_after (max_tokens_to_generate : Z) (k : nat)
  : option LoopState :=
  match k with
  | O => Some initial_state
  | S k' =>
      match nth_error (run_trace max_tokens_to_generate) k' with
      | Some (Ok f) => Some (flow_state f)
      | _ => None
      end
  end.

Definition is_continue (r : result Flow) : Prop :=
  match r with
  | Ok (Continue _) => True
  | _ => False
  end.

Definition prompt_length : nat := length (attention_mask model_inputs).

(** The mask invariant as the specification words it: one more entry
    after every executed step, the stopping step included. *)
Definition mask_grows_every_step (max_tokens_to_generate : Z) : Prop :=
  forall (k : nat) (st : LoopState),
    (1 <= k)%nat ->
    state_after max_tokens_to_generate k = Some st ->
    length (st_attention_mask st) = (prompt_length + k)%nat.

(** Exhausting the budget as the specification words it: when no
    iteration fails or samples the stop token, the run returns a
    sequence as long as the budget. *)
Definition budget_yields_sequence (max_tokens_to_generate : Z) : Prop :=
  Forall is_continue (run_trace max_tokens_to_generate) ->
  exists tokens,
    generate_tokens max_tokens_to_generate = Ok tokens /\
    Z.of_nat (length tokens) = max_tokens_to_generate.

End Inference.

Arguments logits {Cache} _.
Arguments kv_cache {Cache} _.
Arguments input_ids {Pixels} _.
Arguments attention_mask {Pixels} _.
Arguments pixel_values {Pixels} _.
Arguments st_input_ids {Cache} _.
Arguments st_attention_mask {Cache} _.
Arguments st_kv_cache {Cache} _.
Arguments generated_tokens {Cache} _.
Arguments Break {Cache} _.
Arguments Continue {Cache} _.
Arguments flow_state {Cache} _.
Arguments is_continue {Cache} _.
Arguments initial_state {Cache Pixels}.
Arguments loop_body {Cache Pixels}.
Arguments decode_loop {Cache Pixels}.
Arguments decode_trace {Cache Pixels}.
Arguments generate_tokens {Cache Pixels}.
Arguments test_inference {Cache Pixels}.
Arguments run_trace {Cache Pixels}.
Arguments state_after {Cache Pixels}.
Arguments prompt_length {Pixels}.
Arguments mask_grows_every_step {Cache Pixels}.
Arguments budget_yields_sequence {Cache Pixels}.

(** The token appended by the iteration that produced [st]. *)
Definition last_token {Cache : Type} (st : LoopState Cache) : nat :=
  last (generated_tokens st) 0%nat.

(** ** A scripted model

    A stand-in for the forward pass, used to run the loop on concrete
    inputs: its cache counts the calls made so far, and the scores of
    the k-th call put all the weight on the k-th token of a script. *)

Definition one_hot (vocab t : nat) : list Q :=
  map (fun i => if Nat.eqb i t then 1 else 0) (seq 0 vocab).

Definition scripted_model (script : list nat) (vocab : nat)
    (ids : list nat) (pixels : unit) (mask : list Q) (calls : nat)
  : result (ModelOutput nat) :=
  Ok {| logits := [one_hot vocab (nth calls script 0%nat)];
        kv_cache := S calls |}.

Definition demo_inputs : ModelInputs unit :=
  {| input_ids := [7; 8]%nat; attention_mask := [1; 1]; pixel_values := tt |}.

(** Greedy generation with the scripted model over a vocabulary of 50
    tokens, token 1 being the stop token. *)
Definition demo_tokens (script : list nat) (max_tokens_to_generate : Z)
  : result (list nat) :=
  generate_tokens (scripted_model script 50) (fun l => l) (fun _ => 0)
    0%nat demo_inputs 1%nat 1 1 false max_tokens_to_generate.

Definition demo_trace (script : list nat) (max_tokens_to_generate : Z)
  : list (result (Flow nat)) :=
  run_trace (scripted_model script 50) (fun l => l) (fun _ => 0)
    0%nat demo_inputs 1%nat 1 1 false max_tokens_to_generate.

Definition demo_state_after (script : list nat) (max_tokens_to_generate : Z)
    (k : nat) : option (LoopState nat) :=
  state_after (scripted_model script 50) (fun l => l) (fun _ => 0)
    0%nat demo_inputs 1%nat 1 1 false max_tokens_to_generate k.


(** ** Predicates used in the statements *)

(** [i] is the position of the first maximal value of [scores]. *)
Definition first_max (scores : list Q) (i : nat) : Prop :=
  (i < length scores)%nat /\
  (forall j, (j < length scores)%nat -> nth j scores 0 <= nth i scores 0) /\
  (forall j, (j < i)%nat -> nth j scores 0 < nth i scores 0).

(** Largest value first. *)
Definition desc_sorted (l : list (Q * nat)) : Prop :=
  StronglySorted (fun a b => fst b <= fst a) l.

(** Zeroing by exclusive running sum: what lines 94-96 compute, with the
    running sum [acc] of the values before the current one. *)
Fixpoint truncate_from (acc p : Q) (l : list Q) : list Q :=
  match l with
  | [] => []
  | x :: l' => (if Qlt_bool p acc then 0 else x) :: truncate_from (acc + x) p l'
  end.

Definition nonneg (l : list Q) : Prop := Forall (fun x => 0 <= x) l.

(** The scripted model with a forward pass that raises on the call
    number [fail_at], counted from zero. *)
Definition flaky_model (fail_at : nat) (script : list nat) (vocab : nat)
    (ids : list nat) (pixels : unit) (mask : list Q) (calls : nat)
  : result (ModelOutput nat) :=
  if Nat.eqb calls fail_at then Err ModelFailure
  else scripted_model script vocab ids pixels mask calls.


(** * Properties *)

(** ** Worked examples *)

Example sample_example_1 :
  _sample_top_p [1#10; 6#10; 3#10] (1#2) (1#3) = Ok 1%nat.
Proof. reflexivity. Qed.

Example sample_example_2 :
  _sample_top_p [1#10; 6#10; 3#10] (9#10) (3#4) = Ok 2%nat.
Proof. reflexivity. Qed.

Example argmax_example : argmax [1#10; 9#10; 9#10] = Ok 1%nat.
Proof. reflexivity. Qed.

(** The end-to-end run of the specification: scores favouring 42, then
    43, then the stop token give these three tokens and stop there. *)
Example end_to_end_example : demo_tokens [42; 43; 1]%nat 3 = Ok [42; 43; 1]%nat.
Proof. vm_compute. reflexivity. Qed.

Example end_to_end_stops_early :
  demo_tokens [42; 43; 1; 44; 45]%nat 100 = Ok [42; 43; 1]%nat /\
  length (demo_trace [42; 43; 1; 44; 45]%nat 100) = 3%nat.
Proof. vm_compute. split; reflexivity. Qed.

Example budget_exhausted_example :
  demo_tokens [42; 43; 44; 45]%nat 3 = Ok [42; 43; 44]%nat.
Proof. vm_compute. reflexivity. Qed.

Example mask_after_stop_example :
  option_map (fun st => length (st_attention_mask st))
    (demo_state_after [42; 43; 1]%nat 3 3) = Some 4%nat.
Proof. vm_compute. reflexivity. Qed.


(** ** Comparisons and sums of rationals *)

Lemma Qlt_bool_true (a b : Q) : Qlt_bool a b = true <-> a < b.
Proof.
  unfold Qlt_bool. rewrite negb_true_iff.
  split; intro H.
  - apply Qnot_le_lt. intro Hle. apply Qle_bool_iff in Hle. congruence.
  - destruct (Qle_bool b a) eqn:E; [|reflexivity].
    apply Qle_bool_iff in E. lra.
Qed.

Lemma Qlt_bool_false (a b : Q) : Qlt_bool a b = false <-> b <= a.
Proof.
  unfold Qlt_bool. rewrite negb_false_iff. apply Qle_bool_iff.
Qed.

Ltac qcases a b :=
  let E := fresh "E" in
  destruct (Qlt_bool a b) eqn:E;
  [apply Qlt_bool_true in E | apply Qlt_bool_false in E].

(** ** The greedy strategy *)

Lemma argmax_from_first_max (l pre : list Q) (best : nat) :
  (best < length pre)%nat ->
  (forall j, (j < length pre)%nat -> nth j pre 0 <= nth best pre 0) ->
  (forall j, (j < best)%nat -> nth j pre 0 < nth best pre 0) ->
  first_max (pre ++ l)
    (argmax_from best (nth best pre 0) (length pre) l).
Proof.
  revert pre best.
  induction l as [|x l IH]; intros pre best Hb Hmax Hfirst; simpl.
  - rewrite app_nil_r. repeat split; assumption.
  - assert (Hlen : length (pre ++ [x]) = S (length pre))
      by (rewrite length_app; simpl; lia).
    assert (Hx : nth (length pre) (pre ++ [x]) 0 = x)
      by (rewrite app_nth2, Nat.sub_diag by lia; reflexivity).
    assert (Hpre : forall j, (j < length pre)%nat ->
                             nth j (pre ++ [x]) 0 = nth j pre 0)
      by (intros j Hj; apply app_nth1; exact Hj).
    replace (pre ++ x :: l) with ((pre ++ [x]) ++ l)
      by (rewrite <- app_assoc; reflexivity).
    qcases (nth best pre 0) x.
    + specialize (IH (pre ++ [x]) (length pre)).
      rewrite Hx, Hlen in IH. apply IH.
      * lia.
      * intros j Hj.
        destruct (Nat.eq_dec j (length pre)) as [->|Hne].
        -- rewrite Hx. lra.
        -- rewrite Hpre by lia. specialize (Hmax j ltac:(lia)). lra.
      * intros j Hj. rewrite Hpre by lia.
        specialize (Hmax j Hj). lra.
    + specialize (IH (pre ++ [x]) best).
      rewrite (Hpre best Hb), Hlen in IH. apply IH.
      * lia.
      * intros j Hj.
        destruct (Nat.eq_dec j (length pre)) as [->|Hne].
        -- rewrite Hx. exact E.
        -- rewrite Hpre by lia. apply Hmax. lia.
      * intros j Hj. rewrite Hpre by lia.
        apply Hfirst. exact Hj.
Qed.

Lemma argmax_first_max (scores : list Q) :
  scores <> [] ->
  exists i, argmax scores = Ok i /\ first_max scores i.
Proof.
  destruct scores as [|x l]; [congruence|]. intros _.
  exists (argmax_from 0%nat x 1%nat l). split; [reflexivity|].
  apply (argmax_from_first_max l [x] 0%nat); simpl.
  - lia.
  - intros j Hj. assert (j = 0%nat) by lia. subst. lra.
  - intros j Hj. lia.
Qed.

(** ** Sorting *)

Lemma insert_desc_perm (a : Q * nat) (l : list (Q * nat)) :
  Permutation (insert_desc a l) (a :: l).
Proof.
  induction l as [|b l IH]; simpl.
  - apply Permutation_refl.
  - destruct (Qlt_bool (fst a) (fst b)).
    + apply perm_trans with (b :: a :: l).
      * apply perm_skip. exact IH.
      * apply perm_swap.
    + apply Permutation_refl.
Qed.

Lemma sort_desc_perm (l : list (Q * nat)) : Permutation (sort_desc l) l.
Proof.
  induction l as [|a l IH]; simpl.
  - apply perm_nil.
  - apply perm_trans with (a :: sort_desc l).
    + apply insert_desc_perm.
    + apply perm_skip. exact IH.
Qed.

Lemma insert_desc_sorted (a : Q * nat) (l : list (Q * nat)) :
  desc_sorted l -> desc_sorted (insert_desc a l).
Proof.
  unfold desc_sorted.
  induction l as [|b l IH]; intros Hs; simpl.
  - constructor; constructor.
  - inversion Hs as [|? ? Hs' Hall]; subst.
    qcases (fst a) (fst b).
    + constructor.
      * apply IH. exact Hs'.
      * apply Forall_forall. intros c Hc.
        apply (Permutation_in _ (insert_desc_perm a l)) in Hc.
        destruct Hc as [<-|Hc].
        -- lra.
        -- rewrite Forall_forall in Hall. apply Hall. exact Hc.
    + constructor.
      * exact Hs.
      * constructor.
        -- exact E.
        -- apply Forall_forall. intros c Hc.
           rewrite Forall_forall in Hall. specialize (Hall c Hc). lra.
Qed.

Lemma sort_desc_sorted (l : list (Q * nat)) : desc_sorted (sort_desc l).
Proof.
  induction l as [|a l IH]; simpl.
  - constructor.
  - apply insert_desc_sorted. exact IH.
Qed.

Lemma enumerate_from_fst (l : list Q) (k : nat) :
  map fst (combine l (seq k (length l))) = l.
Proof.
  revert k. induction l as [|x l IH]; intros k; simpl.
  - reflexivity.
  - rewrite IH. reflexivity.
Qed.

Lemma enumerate_from_snd (l : list Q) (k : nat) :
  map snd (combine l (seq k (length l))) = seq k (length l).
Proof.
  revert k. induction l as [|x l IH]; intros k; simpl.
  - reflexivity.
  - rewrite IH. reflexivity.
Qed.

Lemma enumerate_from_in (l : list Q) (k : nat) (v : Q) (i : nat) :
  In (v, i) (combine l (seq k (length l))) ->
  (k <= i < k + length l)%nat /\ nth (i - k) l 0 = v.
Proof.
  revert k. induction l as [|x l IH]; intros k; simpl.
  - intros [].
  - intros [Heq|Hin].
    + inversion Heq; subst. rewrite Nat.sub_diag. split; [lia|reflexivity].
    + apply IH in Hin. destruct Hin as [Hr Hn]. split; [lia|].
      replace (i - k)%nat with (S (i - S k)) by lia. exact Hn.
Qed.

Lemma enumerate_in (probs : list Q) (v : Q) (i : nat) :
  In (v, i) (enumerate probs) ->
  (i < length probs)%nat /\ nth i probs 0 = v.
Proof.
  intros H. apply enumerate_from_in in H.
  rewrite Nat.sub_0_r in H. destruct H as [Hr Hn]. split; [lia|exact Hn].
Qed.

Lemma enumerate_nth_in (probs : list Q) (i : nat) :
  (i < length probs)%nat -> In (nth i probs 0, i) (enumerate probs).
Proof.
  intros Hi. unfold enumerate.
  assert (H : nth i (combine probs (seq 0 (length probs))) (0, 0%nat)
              = (nth i probs 0, i)).
  { rewrite combine_nth by (rewrite length_seq; reflexivity).
    rewrite seq_nth by exact Hi. reflexivity. }
  rewrite <- H. apply nth_In.
  rewrite length_combine, length_seq. lia.
Qed.

Lemma torch_sort_length (probs : list Q) :
  length (fst (torch_sort probs)) = length probs /\
  length (snd (torch_sort probs)) = length probs.
Proof.
  unfold torch_sort; simpl. rewrite !length_map.
  rewrite (Permutation_length (sort_desc_perm (enumerate probs))).
  unfold enumerate. rewrite length_combine, length_seq.
  split; lia.
Qed.

Lemma torch_sort_values_perm (probs : list Q) :
  Permutation (fst (torch_sort probs)) probs.
Proof.
  unfold torch_sort; simpl.
  rewrite <- (enumerate_from_fst probs 0) at 2.
  apply Permutation_map. apply sort_desc_perm.
Qed.

Lemma torch_sort_idx_perm (probs : list Q) :
  Permutation (snd (torch_sort probs)) (seq 0 (length probs)).
Proof.
  unfold torch_sort; simpl.
  rewrite <- (enumerate_from_snd probs 0).
  apply Permutation_map. apply sort_desc_perm.
Qed.

(** ** Sums *)

Lemma Qlt_bool_compat (a a' b b' : Q) :
  a == a' -> b == b' -> Qlt_bool a b = Qlt_bool a' b'.
Proof.
  intros Ha Hb. qcases a b; qcases a' b'; try reflexivity; lra.
Qed.

Lemma Qsum_perm (l l' : list Q) : Permutation l l' -> Qsum l == Qsum l'.
Proof.
  induction 1; simpl; lra.
Qed.

Lemma Qsum_nonneg (l : list Q) : nonneg l -> 0 <= Qsum l.
Proof.
  induction 1; simpl; lra.
Qed.

Lemma Qsum_scale (l : list Q) (c : Q) :
  Qsum (map (fun x => x / c) l) == Qsum l / c.
Proof.
  induction l as [|x l IH]; simpl.
  - unfold Qdiv. ring.
  - rewrite IH. unfold Qdiv. ring.
Qed.

Lemma nonneg_perm (l l' : list Q) : Permutation l l' -> nonneg l -> nonneg l'.
Proof.
  intros Hp Hn. unfold nonneg in *. rewrite Forall_forall in *.
  intros x Hx. apply Hn. apply (Permutation_in _ (Permutation_sym Hp)). exact Hx.
Qed.

Lemma Qsum_nonpos (l : list Q) :
  (forall y, In y l -> y <= 0) -> Qsum l <= 0.
Proof.
  induction l as [|x l IH]; intros Hm; simpl.
  - lra.
  - assert (Hx : x <= 0) by (apply Hm; left; reflexivity).
    assert (Hl : Qsum l <= 0)
      by (apply IH; intros y Hy; apply Hm; right; exact Hy).
    lra.
Qed.

(** ** Truncation *)

Lemma masked_fill_truncate (l : list Q) (acc p : Q) :
  masked_fill l (exceeds_mask (cumsum_from acc l) l p) 0
  = truncate_from acc p l.
Proof.
  revert acc. induction l as [|x l IH]; intros acc.
  - reflexivity.
  - unfold masked_fill, exceeds_mask in *. simpl.
    rewrite IH. f_equal.
    rewrite (Qlt_bool_compat p p (acc + x - x) acc) by lra.
    reflexivity.
Qed.

Lemma truncate_top_p_eq (probs : list Q) (p : Q) :
  truncate_top_p probs p
  = (truncate_from 0 p (fst (torch_sort probs)), snd (torch_sort probs)).
Proof.
  unfold truncate_top_p. destruct (torch_sort probs) as [vs idx]. simpl.
  unfold cumsum. rewrite masked_fill_truncate. reflexivity.
Qed.

Lemma truncate_from_length (l : list Q) (acc p : Q) :
  length (truncate_from acc p l) = length l.
Proof.
  revert acc. induction l as [|x l IH]; intros acc; simpl.
  - reflexivity.
  - rewrite IH. reflexivity.
Qed.

Lemma truncate_from_nonneg (l : list Q) (acc p : Q) :
  nonneg l -> nonneg (truncate_from acc p l).
Proof.
  intros Hn. revert acc. induction Hn as [|x l Hx Hn IH]; intros acc; simpl.
  - constructor.
  - constructor.
    + destruct (Qlt_bool p acc); lra.
    + apply IH.
Qed.

(** With a budget that the whole mass fits in, nothing is masked. *)
Lemma exceeds_mask_none (l : list Q) (acc p : Q) :
  nonneg l -> acc + Qsum l <= p ->
  Forall (fun m => m = false) (exceeds_mask (cumsum_from acc l) l p).
Proof.
  intros Hn. revert acc. induction Hn as [|x l Hx Hn IH]; intros acc Hle.
  - constructor.
  - unfold exceeds_mask in *. simpl in *. constructor.
    + apply Qlt_bool_false. pose proof (Qsum_nonneg l Hn). lra.
    + apply IH. lra.
Qed.

Lemma truncate_from_none (l : list Q) (acc p : Q) :
  nonneg l -> acc + Qsum l <= p -> truncate_from acc p l = l.
Proof.
  intros Hn. revert acc. induction Hn as [|x l Hx Hn IH]; intros acc Hle.
  - reflexivity.
  - simpl in *. pose proof (Qsum_nonneg l Hn).
    assert (E : Qlt_bool p acc = false) by (apply Qlt_bool_false; lra).
    rewrite E, IH by lra. reflexivity.
Qed.

(** Past a budget already exceeded, everything is masked. *)
Lemma truncate_from_all (l : list Q) (acc p : Q) :
  nonneg l -> p < acc -> truncate_from acc p l = repeat 0 (length l).
Proof.
  intros Hn. revert acc. induction Hn as [|x l Hx Hn IH]; intros acc Hlt.
  - reflexivity.
  - simpl.
    assert (E : Qlt_bool p acc = true) by (apply Qlt_bool_true; lra).
    rewrite E, IH by lra. reflexivity.
Qed.

Lemma Qsum_zeros (n : nat) : Qsum (repeat 0 n) == 0.
Proof.
  induction n as [|n IH]; simpl; lra.
Qed.

(** ** The head of the sorted vector *)

Lemma torch_sort_head (probs : list Q) :
  probs <> [] ->
  exists x i vs idx,
    torch_sort probs = (x :: vs, i :: idx) /\
    (i < length probs)%nat /\ nth i probs 0 = x /\
    (forall j, (j < length probs)%nat -> nth j probs 0 <= x).
Proof.
  intros Hne. unfold torch_sort.
  pose proof (sort_desc_perm (enumerate probs)) as Hperm.
  pose proof (sort_desc_sorted (enumerate probs)) as Hsorted.
  destruct (sort_desc (enumerate probs)) as [|[x i] rest] eqn:Es.
  - apply Permutation_length in Hperm. unfold enumerate in Hperm.
    rewrite length_combine, length_seq, Nat.min_id in Hperm.
    destruct probs; [congruence|discriminate].
  - exists x, i, (map fst rest), (map snd rest). simpl.
    assert (Hin : forall j, (j < length probs)%nat ->
                            In (nth j probs 0, j) ((x, i) :: rest)).
    { intros j Hj. apply (Permutation_in _ (Permutation_sym Hperm)).
      apply enumerate_nth_in. exact Hj. }
    assert (Hhead : In (x, i) (enumerate probs)).
    { apply (Permutation_in _ Hperm). left. reflexivity. }
    apply enumerate_in in Hhead. destruct Hhead as [Hi Hx].
    split; [reflexivity|]. split; [exact Hi|]. split; [exact Hx|].
    inversion Hsorted as [|? ? Hs' Hall]; subst.
    rewrite Forall_forall in Hall.
    intros j Hj. destruct (Hin j Hj) as [Heq|Hr].
    + inversion Heq. lra.
    + apply (Hall _ Hr).
Qed.

Lemma positive_mass_positive_max (probs : list Q) (x : Q) :
  0 < Qsum probs ->
  (forall j, (j < length probs)%nat -> nth j probs 0 <= x) ->
  0 < x.
Proof.
  intros Hpos Hmax.
  destruct (Qlt_le_dec 0 x) as [Hx|Hx]; [exact Hx|].
  assert (Qsum probs <= 0).
  { apply Qsum_nonpos. intros y Hy.
    apply (In_nth _ _ 0) in Hy. destruct Hy as [j [Hj <-]].
    specialize (Hmax j Hj). lra. }
  lra.
Qed.

(** ** The weighted draw *)

Lemma inverse_cdf_support (w : list Q) (t : Q) (k : nat) :
  nonneg w -> 0 <= t -> t < Qsum w ->
  exists r, inverse_cdf w t k = Some (k + r)%nat /\
            (r < length w)%nat /\ 0 < nth r w 0.
Proof.
  intros Hn. revert t k.
  induction Hn as [|x w Hx Hn IH]; intros t k Ht Hlt; simpl in *.
  - lra.
  - qcases t x.
    + exists 0%nat. rewrite Nat.add_0_r. repeat split; [lia|lra].
    + destruct (IH (t - x) (S k)) as [r [Hr [Hlen Hpos]]]; [lra|lra|].
      exists (S r). rewrite Hr. repeat split.
      * f_equal. lia.
      * lia.
      * exact Hpos.
Qed.

Lemma nonneg_existsb (w : list Q) :
  nonneg w -> existsb (fun x => Qlt_bool x 0) w = false.
Proof.
  induction 1 as [|x w Hx Hn IH]; simpl.
  - reflexivity.
  - rewrite IH, orb_false_r. apply Qlt_bool_false. exact Hx.
Qed.

Lemma multinomial_support (w : list Q) (u : Q) :
  nonneg w -> 0 < Qsum w -> 0 <= u -> u < 1 ->
  exists r, multinomial w u = Ok r /\ (r < length w)%nat /\ 0 < nth r w 0.
Proof.
  intros Hn Hpos Hu0 Hu1. unfold multinomial.
  rewrite (nonneg_existsb w Hn).
  destruct (Qle_bool (Qsum w) 0) eqn:E1.
  { apply Qle_bool_iff in E1. lra. }
  qcases u 0; [lra|].
  destruct (inverse_cdf_support w (u * Qsum w) 0 Hn) as [r [Hr [Hlen Hw]]].
  - nra.
  - nra.
  - exists r. rewrite Hr. simpl. repeat split; assumption.
Qed.

Lemma multinomial_not_zero_sum (w : list Q) (u : Q) :
  multinomial w u = Err ZeroSum -> False.
Proof.
  unfold multinomial.
  destruct (existsb _ w); [discriminate|].
  destruct (Qle_bool (Qsum w) 0); [discriminate|].
  destruct (Qlt_bool u 0); [discriminate|].
  destruct (inverse_cdf w (u * Qsum w) 0); discriminate.
Qed.

(** ** Renormalisation *)

Lemma div_ok (t : list Q) (total : Q) :
  ~ total == 0 -> div_ t total = Ok (map (fun x => x / total) t).
Proof.
  intros Hne. unfold div_.
  destruct (Qeq_bool total 0) eqn:E; [|reflexivity].
  apply Qeq_bool_iff in E. contradiction.
Qed.

Lemma div_nonneg (t : list Q) (total : Q) :
  nonneg t -> 0 < total -> nonneg (map (fun x => x / total) t).
Proof.
  intros Hn Hpos. induction Hn as [|x t Hx Hn IH]; simpl.
  - constructor.
  - constructor; [|exact IH].
    apply Qle_shift_div_l; [exact Hpos|lra].
Qed.

Lemma div_sum_one (t : list Q) :
  ~ Qsum t == 0 -> Qsum (map (fun x => x / Qsum t) t) == 1.
Proof.
  intros Hne. rewrite Qsum_scale. field. exact Hne.
Qed.

Lemma div_nth_pos (t : list Q) (total : Q) (r : nat) :
  0 < total ->
  0 < nth r (map (fun x => x / total) t) 0 -> 0 < nth r t 0.
Proof.
  intros Hpos. revert r. induction t as [|x t IH]; intros r; simpl.
  - destruct r; intros H; exact H.
  - destruct r as [|r].
    + intros H.
      destruct (Qlt_le_dec 0 x) as [Hx|Hx]; [exact Hx|].
      assert (x / total <= 0).
      { apply Qle_shift_div_r; [exact Hpos|lra]. }
      lra.
    + apply IH.
Qed.

(** ** The distribution the nucleus sampler draws from *)

Lemma positive_mass_nonempty (probs : list Q) : 0 < Qsum probs -> probs <> [].
Proof.
  intros H ->. simpl in H. lra.
Qed.

(** With a non-negative budget the first rank is kept, and the mass that
    survives is positive. *)
Lemma truncate_keeps_head (probs : list Q) (p : Q) :
  nonneg probs -> 0 < Qsum probs -> 0 <= p ->
  exists x i vs idx,
    torch_sort probs = (x :: vs, i :: idx) /\
    (i < length probs)%nat /\ nth i probs 0 = x /\
    (forall j, (j < length probs)%nat -> nth j probs 0 <= x) /\
    0 < x /\ nonneg vs /\
    truncate_top_p probs p = (x :: truncate_from (0 + x) p vs, i :: idx) /\
    0 < Qsum (x :: truncate_from (0 + x) p vs).
Proof.
  intros Hn Hpos Hp.
  destruct (torch_sort_head probs (positive_mass_nonempty probs Hpos))
    as [x [i [vs [idx [Hs [Hi [Hx Hmax]]]]]]].
  exists x, i, vs, idx.
  assert (Hxpos : 0 < x) by (apply (positive_mass_positive_max probs); assumption).
  assert (Hnvs : nonneg vs).
  { pose proof (torch_sort_values_perm probs) as Hperm.
    rewrite Hs in Hperm. simpl in Hperm.
    apply Permutation_sym in Hperm.
    pose proof (nonneg_perm _ _ Hperm Hn) as Hn'.
    inversion Hn'. assumption. }
  repeat split; try assumption.
  - rewrite truncate_top_p_eq, Hs. simpl.
    assert (E : Qlt_bool p 0 = false) by (apply Qlt_bool_false; exact Hp).
    rewrite E. reflexivity.
  - simpl.
    pose proof (Qsum_nonneg _ (truncate_from_nonneg vs (0 + x) p Hnvs)). lra.
Qed.

Lemma nucleus_distribution_ok (probs : list Q) (p : Q) :
  nonneg probs -> 0 < Qsum probs -> 0 <= p ->
  let t := truncate_top_p probs p in
  nonneg (fst t) /\ 0 < Qsum (fst t) /\
  nucleus_distribution probs p
  = Ok (map (fun x => x / Qsum (fst t)) (fst t), snd t).
Proof.
  intros Hn Hpos Hp.
  destruct (truncate_keeps_head probs p Hn Hpos Hp)
    as [x [i [vs [idx [Hs [Hi [Hx [Hmax [Hxpos [Hnvs [Ht Hsum]]]]]]]]]]].
  unfold nucleus_distribution. rewrite Ht. cbv zeta. cbn [fst snd].
  split; [|split].
  - constructor; [lra|]. apply truncate_from_nonneg. exact Hnvs.
  - exact Hsum.
  - rewrite div_ok by lra. reflexivity.
Qed.

Lemma token_weight_rank (values : list Q) (idx : list nat) (r t : nat) :
  nonneg values -> nth_error idx r = Some t ->
  nth r values 0 <= token_weight (combine values idx) t.
Proof.
  intros Hn. revert idx r.
  induction Hn as [|v values Hv Hn IH]; intros idx r Hr.
  - destruct r; simpl; lra.
  - destruct idx as [|i idx]; [destruct r; discriminate|].
    assert (Hrest : 0 <= token_weight (combine values idx) t).
    { clear -Hn. revert idx.
      induction Hn as [|v values Hv Hn IH]; intros idx; [simpl; lra|].
      destruct idx as [|i idx]; simpl; [lra|].
      specialize (IH idx). destruct (Nat.eqb i t); lra. }
    destruct r as [|r]; simpl in *.
    + inversion Hr; subst. rewrite Nat.eqb_refl. lra.
    + specialize (IH idx r Hr). destruct (Nat.eqb i t); lra.
Qed.

Lemma token_weight_perm (d d' : list (Q * nat)) (t : nat) :
  Permutation d d' -> token_weight d t == token_weight d' t.
Proof.
  induction 1 as [|[v i] d d' Hp IH|[v i] [v' i'] d|d d' d'' H1 IH1 H2 IH2];
    simpl.
  - lra.
  - lra.
  - lra.
  - lra.
Qed.

Lemma token_weight_enumerate (l : list Q) (k t : nat) :
  (k <= t < k + length l)%nat ->
  token_weight (combine l (seq k (length l))) t == nth (t - k) l 0.
Proof.
  revert k. induction l as [|x l IH]; intros k Ht; simpl in *.
  - lia.
  - destruct (Nat.eqb_spec k t) as [->|Hne].
    + rewrite Nat.sub_diag.
      assert (Hz : forall l' k', (t < k')%nat ->
                 token_weight (combine l' (seq k' (length l'))) t == 0).
      { clear. induction l' as [|y l' IH]; intros k' Hk; simpl; [lra|].
        destruct (Nat.eqb_spec k' t); [lia|]. rewrite IH by lia. lra. }
      rewrite Hz by lia. lra.
    + rewrite IH by lia.
      replace (t - k)%nat with (S (t - S k)) by lia. lra.
Qed.

Lemma token_weight_Qeq (values values' : list Q) (idx : list nat) (t : nat) :
  Forall2 Qeq values values' ->
  token_weight (combine values idx) t == token_weight (combine values' idx) t.
Proof.
  intros H. revert idx.
  induction H as [|v v' values values' Hv H IH]; intros idx; simpl.
  - lra.
  - destruct idx as [|i idx]; simpl; [lra|].
    rewrite (IH idx). destruct (Nat.eqb i t); lra.
Qed.

Lemma combine_fst_snd (d : list (Q * nat)) :
  combine (map fst d) (map snd d) = d.
Proof.
  induction d as [|[v i] d IH]; simpl; [reflexivity|].
  rewrite IH. reflexivity.
Qed.

(** ** The samplers *)

(** C5. With [do_sample = false] the selected token is the position of
    the maximal score, the lowest such position when several scores are
    maximal; scores [0.1, 0.9, 0.9] select token 1; and the selection
    depends on the scores alone: neither the temperature, nor [top_p],
    nor the random draw changes it. *)
Theorem greedy_selects_first_max :
  (forall softmax temperature top_p u scores,
      scores <> [] ->
      exists i,
        select_next_token softmax false temperature top_p u scores = Ok i /\
        first_max scores i) /\
  (forall softmax temperature top_p u,
      select_next_token softmax false temperature top_p u
        [1#10; 9#10; 9#10] = Ok 1%nat) /\
  (forall softmax softmax' temperature temperature' top_p top_p' u u' scores,
      select_next_token softmax false temperature top_p u scores
      = select_next_token softmax' false temperature' top_p' u' scores).
Proof.
  split; [|split].
  - intros softmax temperature top_p u scores Hne.
    apply argmax_first_max. exact Hne.
  - intros. reflexivity.
  - intros. reflexivity.
Qed.

Lemma greedy_selects_first_max_witness :
  [3#10; 7#10; 2#10; 7#10] <> [] /\
  exists i,
    select_next_token (fun l => l) false 1 1 0 [3#10; 7#10; 2#10; 7#10] = Ok i /\
    first_max [3#10; 7#10; 2#10; 7#10] i.
Proof.
  split; [discriminate|].
  apply (proj1 greedy_selects_first_max (fun l => l) 1 1 0).
  discriminate.
Defined.

(** C2. For a vector of non-negative probabilities of positive total
    mass and [top_p > 0], the mask of the truncation is false at the
    first rank, so the largest probability survives; the truncated
    vector therefore has a positive sum, the renormalisation succeeds,
    and the sampler never fails with a zero sum. *)
Theorem top_entry_never_zeroed (probs : list Q) (p : Q) :
  nonneg probs -> 0 < Qsum probs -> 0 < p ->
  exists x vs,
    fst (torch_sort probs) = x :: vs /\
    (forall j, (j < length probs)%nat -> nth j probs 0 <= x) /\
    hd_error (top_p_mask probs p) = Some false /\
    hd_error (fst (truncate_top_p probs p)) = Some x /\
    0 < x /\
    0 < Qsum (fst (truncate_top_p probs p)) /\
    (exists d, nucleus_distribution probs p = Ok d) /\
    (forall u, _sample_top_p probs p u <> Err ZeroSum).
Proof.
  intros Hn Hpos Hp.
  destruct (truncate_keeps_head probs p Hn Hpos (Qlt_le_weak _ _ Hp))
    as [x [i [vs [idx [Hs [Hi [Hx [Hmax [Hxpos [Hnvs [Ht Hsum]]]]]]]]]]].
  destruct (nucleus_distribution_ok probs p Hn Hpos (Qlt_le_weak _ _ Hp))
    as [_ [_ Hd]].
  exists x, vs. rewrite Ht, Hs. cbn [fst snd hd_error].
  split; [reflexivity|]. split; [exact Hmax|].
  split.
  { unfold top_p_mask, exceeds_mask, cumsum. rewrite Hs. simpl. f_equal.
    apply Qlt_bool_false. lra. }
  split; [reflexivity|]. split; [exact Hxpos|]. split; [exact Hsum|].
  split; [eexists; exact Hd|].
  intros u. unfold _sample_top_p. rewrite Hd. cbn [bind fst snd].
  destruct (multinomial _ u) as [r|e] eqn:E; cbn [bind].
  - unfold gather. destruct (nth_error _ r); discriminate.
  - intros H. inversion H; subst e. apply multinomial_not_zero_sum in E.
    exact E.
Qed.

Lemma top_entry_never_zeroed_witness :
  exists x vs,
    fst (torch_sort [1#10; 6#10; 3#10]) = x :: vs /\
    (forall j, (j < 3)%nat -> nth j [1#10; 6#10; 3#10] 0 <= x) /\
    hd_error (top_p_mask [1#10; 6#10; 3#10] (1#100)) = Some false /\
    hd_error (fst (truncate_top_p [1#10; 6#10; 3#10] (1#100))) = Some x /\
    0 < x /\
    0 < Qsum (fst (truncate_top_p [1#10; 6#10; 3#10] (1#100))) /\
    (exists d, nucleus_distribution [1#10; 6#10; 3#10] (1#100) = Ok d) /\
    (forall u, _sample_top_p [1#10; 6#10; 3#10] (1#100) u <> Err ZeroSum).
Proof.
  apply (top_entry_never_zeroed [1#10; 6#10; 3#10] (1#100)).
  - repeat constructor; lra.
  - reflexivity.
  - lra.
Defined.



Lemma div_by_one (l : list Q) (s : Q) :
  s == 1 -> Forall2 Qeq (map (fun x => x / s) l) l.
Proof.
  intros Hs. induction l as [|x l IH]; simpl; constructor.
  - rewrite Hs. field.
  - exact IH.
Qed.

(** C6. For a probability distribution and [top_p = 1] the mask is false
    everywhere, no entry is zeroed, the renormalised values equal the
    sorted softmax values, and every token keeps exactly its softmax
    probability in the distribution that is drawn from. *)
Theorem top_p_one_keeps_distribution (probs : list Q) :
  nonneg probs -> Qsum probs == 1 ->
  Forall (fun m => m = false) (top_p_mask probs 1) /\
  truncate_top_p probs 1 = torch_sort probs /\
  exists d,
    nucleus_distribution probs 1 = Ok d /\
    Forall2 Qeq (fst d) (fst (torch_sort probs)) /\
    snd d = snd (torch_sort probs) /\
    forall t, (t < length probs)%nat ->
              token_weight (combine (fst d) (snd d)) t == nth t probs 0.
Proof.
  intros Hn Hone.
  pose proof (torch_sort_values_perm probs) as Hperm.
  assert (Hnvs : nonneg (fst (torch_sort probs)))
    by (apply (nonneg_perm probs); [apply Permutation_sym; exact Hperm|exact Hn]).
  assert (Hsum : Qsum (fst (torch_sort probs)) == 1)
    by (rewrite (Qsum_perm _ _ Hperm); exact Hone).
  assert (Ht : truncate_top_p probs 1 = torch_sort probs).
  { rewrite truncate_top_p_eq, truncate_from_none by (try assumption; lra).
    destruct (torch_sort probs); reflexivity. }
  split; [|split].
  - unfold top_p_mask, cumsum. apply exceeds_mask_none; [exact Hnvs|lra].
  - exact Ht.
  - destruct (nucleus_distribution_ok probs 1 Hn) as [_ [_ Hd]]; [lra|lra|].
    rewrite Ht in Hd. eexists. split; [exact Hd|]. cbn [fst snd].
    assert (Hvals : Forall2 Qeq
              (map (fun x => x / Qsum (fst (torch_sort probs)))
                   (fst (torch_sort probs)))
              (fst (torch_sort probs)))
      by (apply div_by_one; exact Hsum).
    split; [exact Hvals|]. split; [reflexivity|].
    intros t Hlt.
    rewrite (token_weight_Qeq _ _ _ t Hvals).
    unfold torch_sort. cbn [fst snd]. rewrite combine_fst_snd.
    rewrite (token_weight_perm _ _ t (sort_desc_perm (enumerate probs))).
    unfold enumerate. rewrite token_weight_enumerate by lia.
    rewrite Nat.sub_0_r. reflexivity.
Qed.

Lemma top_p_one_keeps_distribution_witness :
  Forall (fun m => m = false) (top_p_mask [1#10; 6#10; 3#10] 1) /\
  truncate_top_p [1#10; 6#10; 3#10] 1 = torch_sort [1#10; 6#10; 3#10] /\
  exists d,
    nucleus_distribution [1#10; 6#10; 3#10] 1 = Ok d /\
    Forall2 Qeq (fst d) (fst (torch_sort [1#10; 6#10; 3#10])) /\
    snd d = snd (torch_sort [1#10; 6#10; 3#10]) /\
    forall t, (t < 3)%nat ->
              token_weight (combine (fst d) (snd d)) t
              == nth t [1#10; 6#10; 3#10] 0.
Proof.
  apply (top_p_one_keeps_distribution [1#10; 6#10; 3#10]).
  - repeat constructor; lra.
  - reflexivity.
Defined.

(** C10. For a probability distribution over [n] tokens, [top_p] in
    (0, 1] and a uniform draw in [0, 1), the sampler returns a token: the
    entry of the sort's permutation at the drawn rank, which is an index
    below [n] and has a positive weight in the truncated distribution,
    before and after the renormalisation. *)
Theorem sampled_token_is_valid (probs : list Q) (p u : Q) :
  nonneg probs -> Qsum probs == 1 -> 0 < p -> p <= 1 -> 0 <= u -> u < 1 ->
  exists d r t,
    nucleus_distribution probs p = Ok d /\
    Permutation (snd d) (seq 0 (length probs)) /\
    multinomial (fst d) u = Ok r /\
    nth_error (snd d) r = Some t /\
    _sample_top_p probs p u = Ok t /\
    (t < length probs)%nat /\
    0 < nth r (fst (truncate_top_p probs p)) 0 /\
    0 < nth r (fst d) 0 /\
    0 < token_weight (combine (fst d) (snd d)) t.
Proof.
  intros Hn Hone Hp _ Hu0 Hu1.
  assert (Hpos : 0 < Qsum probs) by lra.
  destruct (nucleus_distribution_ok probs p Hn Hpos (Qlt_le_weak _ _ Hp))
    as [Hnt [Hsum Hd]].
  set (tr := truncate_top_p probs p) in *.
  set (w := map (fun x => x / Qsum (fst tr)) (fst tr)) in *.
  assert (Hidx : snd tr = snd (torch_sort probs))
    by (unfold tr; rewrite truncate_top_p_eq; reflexivity).
  assert (Hlen : length w = length probs).
  { unfold w, tr. rewrite length_map, truncate_top_p_eq. cbn [fst].
    rewrite truncate_from_length. apply torch_sort_length. }
  assert (Hnw : nonneg w) by (apply div_nonneg; assumption).
  assert (Hw1 : Qsum w == 1) by (apply div_sum_one; lra).
  destruct (multinomial_support w u Hnw) as [r [Hr [Hrlen Hrpos]]];
    [lra|exact Hu0|exact Hu1|].
  assert (Hperm : Permutation (snd tr) (seq 0 (length probs)))
    by (rewrite Hidx; apply torch_sort_idx_perm).
  assert (Hrlen' : (r < length (snd tr))%nat).
  { rewrite (Permutation_length Hperm), length_seq. lia. }
  destruct (nth_error (snd tr) r) as [t|] eqn:Et;
    [|apply nth_error_None in Et; lia].
  exists (w, snd tr), r, t. cbn [fst snd].
  split; [exact Hd|]. split; [exact Hperm|]. split; [exact Hr|].
  split; [exact Et|].
  split.
  { unfold _sample_top_p. rewrite Hd. cbn [bind fst snd].
    rewrite Hr. cbn [bind]. unfold gather. rewrite Et. reflexivity. }
  split.
  { apply nth_error_In in Et. apply (Permutation_in _ Hperm) in Et.
    apply in_seq in Et. lia. }
  split; [apply (div_nth_pos _ (Qsum (fst tr))); assumption|].
  split; [exact Hrpos|].
  pose proof (token_weight_rank w (snd tr) r t Hnw Et). lra.
Qed.

Lemma sampled_token_is_valid_witness :
  exists d r t,
    nucleus_distribution [1#10; 6#10; 3#10] (9#10) = Ok d /\
    Permutation (snd d) (seq 0 3) /\
    multinomial (fst d) (3#4) = Ok r /\
    nth_error (snd d) r = Some t /\
    _sample_top_p [1#10; 6#10; 3#10] (9#10) (3#4) = Ok t /\
    (t < 3)%nat /\
    0 < nth r (fst (truncate_top_p [1#10; 6#10; 3#10] (9#10))) 0 /\
    0 < nth r (fst d) 0 /\
    0 < token_weight (combine (fst d) (snd d)) t.
Proof.
  apply (sampled_token_is_valid [1#10; 6#10; 3#10] (9#10) (3#4)).
  - repeat constructor; lra.
  - reflexivity.
  - lra.
  - lra.
  - lra.
  - lra.
Defined.





(** Outside the configuration's range: a negative [top_p] masks every
    rank, the first one included, and the renormalisation fails. *)
Lemma negative_top_p_zero_sum :
  _sample_top_p [1#10; 6#10; 3#10] (-1#100) (1#2) = Err ZeroSum.
Proof. reflexivity. Qed.

(** ** The decode loop *)

Section InferenceProperties.

Context {Cache Pixels : Type}.
Variable model : list nat -> Pixels -> list Q -> Cache
                 -> result (ModelOutput Cache).
Variable softmax : list Q -> list Q.
Variable rand : nat -> Q.
Variable new_cache : Cache.
Variable model_inputs : ModelInputs Pixels.
Variable stop_token : nat.
Variables temperature top_p : Q.
Variable do_sample : bool.
Variable decode : list nat -> string.
Variable prompt : string.

Local Abbreviation body :=
  (loop_body model softmax model_inputs stop_token temperature top_p
     do_sample).
Local Abbreviation loop :=
  (decode_loop model softmax rand model_inputs stop_token temperature
     top_p do_sample).
Local Abbreviation trace :=
  (decode_trace model softmax rand model_inputs stop_token temperature
     top_p do_sample).
Local Abbreviation init := (initial_state new_cache model_inputs).
Local Abbreviation generate :=
  (generate_tokens model softmax rand new_cache model_inputs stop_token
     temperature top_p do_sample).
Local Abbreviation run :=
  (run_trace model softmax rand new_cache model_inputs stop_token
     temperature top_p do_sample).
Local Abbreviation after :=
  (state_after model softmax rand new_cache model_inputs stop_token
     temperature top_p do_sample).

(** What one iteration does to the state. *)
Lemma loop_body_break (u : Q) (st st' : LoopState Cache) :
  body u st = Ok (Break st') ->
  generated_tokens st' = generated_tokens st ++ [stop_token] /\
  st_attention_mask st' = st_attention_mask st.
Proof.
  unfold loop_body.
  destruct (model _ _ _ _) as [outputs|e]; cbn [bind]; [|discriminate].
  destruct (last_position _) as [lg|e]; cbn [bind]; [|discriminate].
  destruct (select_next_token _ _ _ _ _ _) as [tok|e]; cbn [bind];
    [|discriminate].
  destruct (Nat.eqb_spec tok stop_token) as [->|Hne]; intros H;
    inversion H; subst; simpl. split; reflexivity.
Qed.

Lemma loop_body_continue (u : Q) (st st' : LoopState Cache) :
  body u st = Ok (Continue st') ->
  exists tok,
    tok <> stop_token /\
    generated_tokens st' = generated_tokens st ++ [tok] /\
    st_input_ids st' = [tok] /\
    st_attention_mask st' = st_attention_mask st ++ [1].
Proof.
  unfold loop_body.
  destruct (model _ _ _ _) as [outputs|e]; cbn [bind]; [|discriminate].
  destruct (last_position _) as [lg|e]; cbn [bind]; [|discriminate].
  destruct (select_next_token _ _ _ _ _ _) as [tok|e]; cbn [bind];
    [|discriminate].
  destruct (Nat.eqb_spec tok stop_token) as [->|Hne]; intros H;
    inversion H; subst; simpl.
  exists tok. repeat split; try reflexivity. exact Hne.
Qed.

Lemma last_token_snoc (st : LoopState Cache) (l : list nat) (tok : nat) :
  generated_tokens st = l ++ [tok] -> last_token st = tok.
Proof.
  intros H. unfold last_token. rewrite H. apply last_last.
Qed.

(** The loop runs at most as many iterations as its range has. *)
Lemma decode_trace_length (n step : nat) (st : LoopState Cache) :
  (length (trace n step st) <= n)%nat.
Proof.
  revert step st. induction n as [|n IH]; intros step st; simpl.
  - lia.
  - destruct (body (rand step) st) as [[st'|st']|e]; simpl; try lia.
    specialize (IH (S step) st'). lia.
Qed.

(** The state after the j-th executed iteration, counted from zero. *)
Lemma decode_trace_nth (n step j : nat) (st : LoopState Cache) (f : Flow Cache) :
  nth_error (trace n step st) j = Some (Ok f) ->
  length (generated_tokens (flow_state f))
  = (length (generated_tokens st) + S j)%nat /\
  match f with
  | Continue st' =>
      last_token st' <> stop_token /\
      length (st_attention_mask st')
      = (length (st_attention_mask st) + S j)%nat /\
      ((S j < n)%nat -> (S j < length (trace n step st))%nat)
  | Break st' =>
      last_token st' = stop_token /\
      length (st_attention_mask st')
      = (length (st_attention_mask st) + j)%nat /\
      length (trace n step st) = S j /\
      loop n step st = Ok st'
  end.
Proof.
  revert step j st. induction n as [|n IH]; intros step j st; simpl.
  - destruct j; discriminate.
  - destruct (body (rand step) st) as [[st1|st1]|e] eqn:Eb.
    + (* the stop token: the trace ends here *)
      destruct j as [|j]; simpl; [|destruct j; discriminate].
      intros H. inversion H; subst f. clear H.
      apply loop_body_break in Eb. destruct Eb as [Hg Hm].
      cbn [flow_state]. rewrite Hg, Hm, length_app. simpl.
      repeat split; try lia.
      apply (last_token_snoc _ _ _ Hg).
    + (* another token: the loop goes on from [st1] *)
      pose proof (loop_body_continue _ _ _ Eb) as [tok [Hne [Hg [_ Hm]]]].
      destruct j as [|j]; simpl.
      * intros H. inversion H; subst f. clear H.
        cbn [flow_state]. rewrite Hg, Hm, !length_app. simpl.
        split; [lia|]. split; [|split; [lia|]].
        -- rewrite (last_token_snoc _ _ _ Hg). exact Hne.
        -- intros Hlt. destruct n as [|n]; [lia|]. simpl. lia.
      * intros H. specialize (IH (S step) j st1 H).
        rewrite Hg, Hm, !length_app in IH. simpl in IH.
        destruct IH as [Hlen Hf]. split; [lia|].
        destruct f as [st'|st'].
        -- destruct Hf as [Hl [Hmask [Htr Hloop]]].
           repeat split; try lia; assumption.
        -- destruct Hf as [Hl [Hmask Hmore]].
           repeat split; try lia; assumption.
    + destruct j as [|j]; simpl; [|destruct j; discriminate].
      discriminate.
Qed.

(** A run in which every iteration continues uses the whole range. *)
Lemma decode_loop_exhausted (n step : nat) (st : LoopState Cache) :
  Forall is_continue (trace n step st) ->
  exists st',
    loop n step st = Ok st' /\
    length (trace n step st) = n /\
    length (generated_tokens st')
    = (length (generated_tokens st) + n)%nat /\
    (In stop_token (generated_tokens st') ->
     In stop_token (generated_tokens st)).
Proof.
  revert step st. induction n as [|n IH]; intros step st; simpl.
  - intros _. exists st. repeat split; try lia. intros H; exact H.
  - destruct (body (rand step) st) as [[st1|st1]|e] eqn:Eb;
      intros Hall; inversion Hall as [|? ? Hhd Htl]; subst;
      try (simpl in Hhd; contradiction).
    destruct (IH (S step) st1 Htl) as [st' [Hloop [Hlen [Hgen Hin]]]].
    apply loop_body_continue in Eb.
    destruct Eb as [tok [Hne [Hg _]]].
    exists st'. rewrite Hg, length_app in Hgen. simpl in Hgen.
    repeat split; try assumption; try lia.
    intros H. apply Hin in H. rewrite Hg in H.
    apply in_app_or in H. destruct H as [H|[H|[]]]; [exact H|].
    congruence.
Qed.

(** A failing iteration aborts the whole loop with its error. *)
Lemma decode_loop_error (n step j : nat) (st : LoopState Cache) (e : Error) :
  nth_error (trace n step st) j = Some (Err e) ->
  loop n step st = Err e /\ length (trace n step st) = S j.
Proof.
  revert step j st. induction n as [|n IH]; intros step j st; simpl.
  - destruct j; discriminate.
  - destruct (body (rand step) st) as [[st1|st1]|e1] eqn:Eb;
      destruct j as [|j]; simpl; try discriminate;
      try (destruct j; discriminate).
    + intros H. destruct (IH (S step) j st1 H) as [Hl Hlen].
      split; [exact Hl|lia].
    + intros H. inversion H; subst. split; reflexivity.
Qed.

(** Every executed iteration is the loop body applied to the state the
    previous iteration left, with the draw of that iteration. *)
Lemma decode_trace_step (n step j : nat) (st : LoopState Cache)
    (r : result (Flow Cache)) :
  nth_error (trace n step st) j = Some r ->
  exists prev,
    match j with
    | O => prev = st
    | S j' => nth_error (trace n step st) j' = Some (Ok (Continue prev))
    end /\
    r = body (rand (step + j)) prev.
Proof.
  revert step j st. induction n as [|n IH]; intros step j st; simpl.
  - destruct j; discriminate.
  - destruct j as [|j]; simpl.
    + intros H. inversion H; subst r. exists st.
      rewrite Nat.add_0_r. split; reflexivity.
    + destruct (body (rand step) st) as [[st1|st1]|e] eqn:Eb;
        try (destruct j; discriminate).
      intros H. destruct (IH (S step) j st1 H) as [prev [Hprev Hr]].
      exists prev. split.
      * destruct j as [|j]; simpl; [subst prev; reflexivity|exact Hprev].
      * rewrite Hr. f_equal. f_equal. lia.
Qed.


(** C1, as amended.  After step [k] the state holds [k] generated
    tokens; the attention mask has length [prompt_length + k] when the
    token sampled at step [k] is not the stop token, and
    [prompt_length + k - 1] when it is: the loop breaks before it
    extends the mask. *)
Theorem mask_length_after_step (max : Z) (k : nat) (st : LoopState Cache) :
  (1 <= k)%nat ->
  after max k = Some st ->
  length (generated_tokens st) = k /\
  (last_token st <> stop_token ->
   length (st_attention_mask st) = (prompt_length model_inputs + k)%nat) /\
  (last_token st = stop_token ->
   length (st_attention_mask st)
   = (prompt_length model_inputs + k - 1)%nat).
Proof.
  intros Hk. destruct k as [|j]; [lia|]. clear Hk.
  unfold state_after.
  destruct (nth_error (run max) j) as [[f|e]|] eqn:En; try discriminate.
  intros H. inversion H; subst st. clear H.
  unfold run_trace in En. apply decode_trace_nth in En.
  destruct En as [Hlen Hf]. simpl in Hlen.
  split; [exact Hlen|].
  unfold prompt_length.
  destruct f as [st'|st']; cbn [flow_state] in *; simpl in Hf.
  - destruct Hf as [Hl [Hm _]]. split; [congruence|]. intros _. lia.
  - destruct Hf as [Hl [Hm _]]. split; [intros _; lia|]. congruence.
Qed.


(** C4, as amended.  Every run executes at most
    [max_tokens_to_generate] iterations (the loop recurses on its
    range, so it always terminates); and when the budget is at least
    one and no iteration fails or samples the stop token, the run uses
    the whole budget and returns that many tokens, none of them the
    stop token. *)
Theorem budget_bounds_loop (max : Z) :
  (length (run max) <= Z.to_nat max)%nat /\
  ((1 <= max)%Z ->
   Forall is_continue (run max) ->
   exists tokens,
     generate max = Ok tokens /\
     Z.of_nat (length tokens) = max /\
     length (run max) = Z.to_nat max /\
     ~ In stop_token tokens).
Proof.
  split; [apply decode_trace_length|].
  intros Hmax Hall. unfold run_trace in *.
  destruct (decode_loop_exhausted _ _ _ Hall)
    as [st' [Hloop [Hlen [Hgen Hin]]]].
  simpl in Hgen.
  exists (generated_tokens st'). unfold generate_tokens.
  rewrite Hloop. cbn [bind].
  split; [|split; [lia|split; [exact Hlen|]]].
  - destruct (generated_tokens st'); [simpl in Hgen; lia|reflexivity].
  - intros H. apply Hin in H. exact H.
Qed.

(** C9.  With a budget of zero or less the loop body never runs, the
    list of generated tokens stays empty, its concatenation fails, and
    so does the call: nothing is printed. *)
Theorem empty_budget_fails (max : Z) :
  (max <= 0)%Z ->
  run max = [] /\
  loop (Z.to_nat max) 0%nat init = Ok init /\
  generated_tokens init = [] /\
  generate max = Err EmptyCat /\
  test_inference model softmax rand decode new_cache model_inputs prompt
    stop_token temperature top_p do_sample max = Err EmptyCat.
Proof.
  intros Hmax.
  assert (E : Z.to_nat max = 0%nat) by lia.
  unfold test_inference, generate_tokens, run_trace. rewrite E.
  repeat split.
Qed.

End InferenceProperties.

(** ** The loop on concrete runs *)

Lemma mask_length_after_step_witness :
  exists st,
    demo_state_after [42; 43; 1]%nat 5 3 = Some st /\
    length (generated_tokens st) = 3%nat /\
    (last_token st <> 1%nat ->
     length (st_attention_mask st) = (prompt_length demo_inputs + 3)%nat) /\
    (last_token st = 1%nat ->
     length (st_attention_mask st) = (prompt_length demo_inputs + 3 - 1)%nat).
Proof.
  eexists. split.
  - vm_compute. reflexivity.
  - apply (mask_length_after_step (scripted_model [42; 43; 1]%nat 50)
             (fun l => l) (fun _ => 0) 0%nat demo_inputs 1%nat 1 1 false
             5 3).
    + lia.
    + vm_compute. reflexivity.
Defined.

(** C1 as worded fails on the step that samples the stop token: with a
    prompt of length 2 and the stop token sampled at step 1, the mask
    after step 1 still has length 2. *)
Lemma mask_grows_counterexample :
  ~ mask_grows_every_step (scripted_model [1]%nat 50) (fun l => l)
      (fun _ => 0) 0%nat demo_inputs 1%nat 1 1 false 3.
Proof.
  intros H.
  specialize (H 1%nat
                {| st_input_ids := [7; 8]%nat;
                   st_attention_mask := [1; 1];
                   st_kv_cache := 1%nat;
                   generated_tokens := [1]%nat |}
                (le_n 1)).
  assert (Hafter :
    state_after (scripted_model [1]%nat 50) (fun l => l) (fun _ => 0)
      0%nat demo_inputs 1%nat 1 1 false 3 1
    = Some {| st_input_ids := [7; 8]%nat;
              st_attention_mask := [1; 1];
              st_kv_cache := 1%nat;
              generated_tokens := [1]%nat |})
    by (vm_compute; reflexivity).
  specialize (H Hafter). vm_compute in H. discriminate H.
Qed.


Lemma budget_bounds_loop_witness :
  (1 <= 3)%Z /\
  Forall is_continue (demo_trace [42; 43; 44; 45]%nat 3) /\
  exists tokens,
    demo_tokens [42; 43; 44; 45]%nat 3 = Ok tokens /\
    Z.of_nat (length tokens) = 3%Z /\
    length (demo_trace [42; 43; 44; 45]%nat 3) = Z.to_nat 3 /\
    ~ In 1%nat tokens.
Proof.
  assert (Hall : Forall is_continue (demo_trace [42; 43; 44; 45]%nat 3))
    by (vm_compute; repeat constructor).
  split; [lia|]. split; [exact Hall|].
  apply (proj2 (budget_bounds_loop (scripted_model [42; 43; 44; 45]%nat 50)
                  (fun l => l) (fun _ => 0) 0%nat demo_inputs 1%nat 1 1
                  false 3)).
  - lia.
  - exact Hall.
Defined.

(** C4 as worded fails for an empty budget: no iteration runs, so none
    fails or samples the stop token, yet the call raises instead of
    returning the empty sequence. *)
Lemma budget_counterexample :
  ~ budget_yields_sequence (scripted_model [42]%nat 50) (fun l => l)
      (fun _ => 0) 0%nat demo_inputs 1%nat 1 1 false 0.
Proof.
  intros H. destruct H as [tokens [Hg _]].
  - constructor.
  - discriminate Hg.
Qed.

Lemma empty_budget_fails_witness :
  demo_trace [42]%nat 0 = [] /\
  demo_tokens [42]%nat 0 = Err EmptyCat /\
  demo_tokens [42]%nat (-3) = Err EmptyCat.
Proof.
  pose proof (empty_budget_fails (scripted_model [42]%nat 50) (fun l => l)
                (fun _ => 0) 0%nat demo_inputs 1%nat 1 1 false
                (fun _ => EmptyString) EmptyString 0 ltac:(lia))
    as [Htrace [_ [_ [Hgen _]]]].
  pose proof (empty_budget_fails (scripted_model [42]%nat 50) (fun l => l)
                (fun _ => 0) 0%nat demo_inputs 1%nat 1 1 false
                (fun _ => EmptyString) EmptyString (-3) ltac:(lia))
    as [_ [_ [_ [Hneg _]]]].
  split; [exact Htrace|]. split; [exact Hgen|exact Hneg].
Defined.

(** * Further properties of the code *)

(** ** The truncation of the nucleus sampler *)

Lemma exceeds_mask_nth (l : list Q) (acc p : Q) (r : nat) :
  (r < length l)%nat ->
  nth r (exceeds_mask (cumsum_from acc l) l p) false
  = Qlt_bool p (acc + Qsum (firstn r l)).
Proof.
  revert acc r. induction l as [|x l IH]; intros acc r Hr; simpl in Hr.
  - lia.
  - unfold exceeds_mask in *. destruct r as [|r]; simpl.
    + apply Qlt_bool_compat; lra.
    + rewrite IH by lia. apply Qlt_bool_compat; lra.
Qed.

Lemma truncate_from_nth (l : list Q) (acc p : Q) (r : nat) :
  (r < length l)%nat ->
  nth r (truncate_from acc p l) 0
  = if Qlt_bool p (acc + Qsum (firstn r l)) then 0 else nth r l 0.
Proof.
  revert acc r. induction l as [|x l IH]; intros acc r Hr; simpl in Hr.
  - lia.
  - destruct r as [|r]; simpl.
    + rewrite (Qlt_bool_compat p p (acc + 0) acc) by lra. reflexivity.
    + rewrite IH by lia.
      rewrite (Qlt_bool_compat p p (acc + x + Qsum (firstn r l))
                 (acc + (x + Qsum (firstn r l)))) by lra.
      reflexivity.
Qed.

Lemma firstn_nonneg (l : list Q) (r : nat) :
  nonneg l -> nonneg (firstn r l).
Proof.
  intros Hn. revert r. induction Hn as [|x l Hx Hn IH]; intros r.
  - rewrite firstn_nil. constructor.
  - destruct r as [|r]; simpl; constructor; [exact Hx|apply IH].
Qed.

Lemma torch_sort_nonneg (probs : list Q) :
  nonneg probs -> nonneg (fst (torch_sort probs)).
Proof.
  intros Hn. apply (nonneg_perm probs); [|exact Hn].
  apply Permutation_sym. apply torch_sort_values_perm.
Qed.

Lemma top_p_mask_nth (probs : list Q) (p : Q) (r : nat) :
  (r < length probs)%nat ->
  nth r (top_p_mask probs p) false
  = Qlt_bool p (Qsum (firstn r (fst (torch_sort probs)))).
Proof.
  intros Hr. unfold top_p_mask, cumsum.
  rewrite exceeds_mask_nth
    by (rewrite (proj1 (torch_sort_length probs)); exact Hr).
  apply Qlt_bool_compat; lra.
Qed.






(** ** What the nucleus sampler returns *)

Lemma torch_sort_rank (probs : list Q) (r t : nat) :
  nth_error (snd (torch_sort probs)) r = Some t ->
  (t < length probs)%nat /\
  nth r (fst (torch_sort probs)) 0 = nth t probs 0.
Proof.
  unfold torch_sort. cbn [fst snd]. rewrite nth_error_map.
  destruct (nth_error (sort_desc (enumerate probs)) r) as [[v i]|] eqn:En;
    [|discriminate].
  simpl. intros H. inversion H; subst i. clear H.
  assert (Hin : In (v, t) (enumerate probs)).
  { apply (Permutation_in _ (sort_desc_perm (enumerate probs))).
    apply (nth_error_In _ _ En). }
  apply enumerate_in in Hin. destruct Hin as [Ht Hv].
  split; [exact Ht|].
  rewrite Hv.
  change 0 with (fst (0, 0%nat)). rewrite map_nth.
  rewrite (nth_error_nth _ _ _ En). reflexivity.
Qed.

(** The sampler on weights of positive mass: the renormalisation
    succeeds, the draw picks a rank of positive truncated weight, and the
    token returned is the sort's index at that rank. *)
Lemma sample_top_p_draw (probs : list Q) (p u : Q) :
  nonneg probs -> 0 < Qsum probs -> 0 <= p -> 0 <= u -> u < 1 ->
  exists r t,
    _sample_top_p probs p u = Ok t /\
    (r < length probs)%nat /\
    nth_error (snd (torch_sort probs)) r = Some t /\
    0 < nth r (fst (truncate_top_p probs p)) 0.
Proof.
  intros Hn Hpos Hp Hu0 Hu1.
  destruct (nucleus_distribution_ok probs p Hn Hpos Hp) as [Hnt [Hsum Hd]].
  set (tr := truncate_top_p probs p) in *.
  set (w := map (fun x => x / Qsum (fst tr)) (fst tr)) in *.
  assert (Hidx : snd tr = snd (torch_sort probs))
    by (unfold tr; rewrite truncate_top_p_eq; reflexivity).
  assert (Hlen : length w = length probs).
  { unfold w, tr. rewrite length_map, truncate_top_p_eq. cbn [fst].
    rewrite truncate_from_length. apply torch_sort_length. }
  assert (Hnw : nonneg w) by (apply div_nonneg; assumption).
  assert (Hw1 : Qsum w == 1) by (apply div_sum_one; lra).
  destruct (multinomial_support w u Hnw) as [r [Hr [Hrlen Hrpos]]];
    [lra|exact Hu0|exact Hu1|].
  destruct (nth_error (snd tr) r) as [t|] eqn:Et.
  - exists r, t. split; [|split; [lia|split]].
    + unfold _sample_top_p. rewrite Hd. cbn [bind fst snd].
      rewrite Hr. cbn [bind]. unfold gather. rewrite Et. reflexivity.
    + rewrite <- Hidx. exact Et.
    + apply (div_nth_pos _ (Qsum (fst tr))); assumption.
  - apply nth_error_None in Et.
    rewrite Hidx, (proj2 (torch_sort_length probs)) in Et. lia.
Qed.

(** X3. On weights of positive mass, for any [p >= 0] and any draw in
    [0, 1), the sampler returns a token, and never one whose input
    probability is zero. *)
Theorem sampled_token_has_positive_probability (probs : list Q) (p u : Q) :
  nonneg probs -> 0 < Qsum probs -> 0 <= p -> 0 <= u -> u < 1 ->
  exists t,
    _sample_top_p probs p u = Ok t /\
    (t < length probs)%nat /\
    0 < nth t probs 0.
Proof.
  intros Hn Hpos Hp Hu0 Hu1.
  destruct (sample_top_p_draw probs p u Hn Hpos Hp Hu0 Hu1)
    as [r [t [Hs [Hr [Ht Hw]]]]].
  exists t. split; [exact Hs|].
  destruct (torch_sort_rank probs r t Ht) as [Hlt Hval].
  split; [exact Hlt|].
  rewrite truncate_top_p_eq in Hw. cbn [fst] in Hw.
  rewrite truncate_from_nth in Hw
    by (rewrite (proj1 (torch_sort_length probs)); exact Hr).
  destruct (Qlt_bool p _); [lra|].
  rewrite <- Hval. exact Hw.
Qed.

Lemma sampled_token_has_positive_probability_witness :
  exists t,
    _sample_top_p [0; 2; 0; 1; 1] (3#4) (7#10) = Ok t /\
    (t < 5)%nat /\
    0 < nth t [0; 2; 0; 1; 1] 0.
Proof.
  apply (sampled_token_has_positive_probability [0; 2; 0; 1; 1] (3#4) (7#10)).
  - repeat constructor; lra.
  - reflexivity.
  - lra.
  - lra.
  - lra.
Defined.

Lemma div_zero (t : list Q) (total : Q) :
  total == 0 -> div_ t total = Err ZeroSum.
Proof.
  intros H. unfold div_.
  destruct (Qeq_bool total 0) eqn:E; [reflexivity|].
  apply Qeq_bool_neq in E. contradiction.
Qed.

Lemma sample_top_p_zero_sum (probs : list Q) (p u : Q) :
  Qsum (truncate_from 0 p (fst (torch_sort probs))) == 0 ->
  _sample_top_p probs p u = Err ZeroSum.
Proof.
  intros H. unfold _sample_top_p, nucleus_distribution.
  rewrite truncate_top_p_eq. cbv zeta beta iota.
  rewrite div_zero by exact H. reflexivity.
Qed.

(** X4. A negative [p] masks every rank of a non-negative vector, so
    the renormalisation divides by zero and the sampler fails, whatever
    the draw. *)
Theorem negative_top_p_fails (probs : list Q) (p u : Q) :
  nonneg probs -> p < 0 ->
  Forall (fun m => m = true) (top_p_mask probs p) /\
  _sample_top_p probs p u = Err ZeroSum.
Proof.
  intros Hn Hp. pose proof (torch_sort_nonneg probs Hn) as Hns. split.
  - apply Forall_forall. intros m Hm.
    apply (In_nth _ _ false) in Hm. destruct Hm as [r [Hr <-]].
    assert (Hr' : (r < length probs)%nat).
    { unfold top_p_mask, exceeds_mask in Hr.
      rewrite length_map, length_combine in Hr.
      pose proof (proj1 (torch_sort_length probs)). lia. }
    rewrite top_p_mask_nth by exact Hr'. apply Qlt_bool_true.
    pose proof (Qsum_nonneg _ (firstn_nonneg _ r Hns)). lra.
  - apply sample_top_p_zero_sum.
    rewrite truncate_from_all by assumption. apply Qsum_zeros.
Qed.

Lemma negative_top_p_fails_witness :
  Forall (fun m => m = true) (top_p_mask [1#4; 3#4] (-1#10)) /\
  _sample_top_p [1#4; 3#4] (-1#10) (1#2) = Err ZeroSum.
Proof.
  apply (negative_top_p_fails [1#4; 3#4] (-1#10) (1#2)).
  - repeat constructor; lra.
  - lra.
Defined.

(** ** The states of the decode loop *)

Section DecodeLoopFacts.

Context {Cache Pixels : Type}.
Variable model : list nat -> Pixels -> list Q -> Cache
                 -> result (ModelOutput Cache).
Variable softmax : list Q -> list Q.
Variable rand : nat -> Q.
Variable new_cache : Cache.
Variable model_inputs : ModelInputs Pixels.
Variable stop_token : nat.
Variables temperature top_p : Q.
Variable do_sample : bool.
Variable decode : list nat -> string.
Variable prompt : string.

Local Abbreviation body :=
  (loop_body model softmax model_inputs stop_token temperature top_p
     do_sample).
Local Abbreviation loop :=
  (decode_loop model softmax rand model_inputs stop_token temperature
     top_p do_sample).
Local Abbreviation trace :=
  (decode_trace model softmax rand model_inputs stop_token temperature
     top_p do_sample).
Local Abbreviation init := (initial_state new_cache model_inputs).
Local Abbreviation generate :=
  (generate_tokens model softmax rand new_cache model_inputs stop_token
     temperature top_p do_sample).
Local Abbreviation run :=
  (run_trace model softmax rand new_cache model_inputs stop_token
     temperature top_p do_sample).
Local Abbreviation after :=
  (state_after model softmax rand new_cache model_inputs stop_token
     temperature top_p do_sample).

(** A successful iteration made one forward call on the state it
    started from, selected its token from the scores at the last
    position, and kept the cache that call returned. *)
Lemma loop_body_ok (u : Q) (st : LoopState Cache) (f : Flow Cache) :
  body u st = Ok f ->
  exists outputs scores,
    model (st_input_ids st) (pixel_values model_inputs)
          (st_attention_mask st) (st_kv_cache st) = Ok outputs /\
    last_position (logits outputs) = Ok scores /\
    select_next_token softmax do_sample temperature top_p u scores
    = Ok (last_token (flow_state f)) /\
    st_kv_cache (flow_state f) = kv_cache outputs.
Proof.
  unfold loop_body.
  destruct (model _ _ _ _) as [outputs|e] eqn:Em; cbn [bind];
    [|discriminate].
  destruct (last_position _) as [scores|e] eqn:El; cbn [bind];
    [|discriminate].
  destruct (select_next_token _ _ _ _ _ _) as [tok|e] eqn:Es; cbn [bind];
    [|discriminate].
  intros H. exists outputs, scores.
  assert (Hl : last_token (flow_state f) = tok /\
               st_kv_cache (flow_state f) = kv_cache outputs).
  { destruct (Nat.eqb tok stop_token); injection H as <-;
      cbn [flow_state]; unfold last_token; simpl; rewrite last_last;
      split; reflexivity. }
  destruct Hl as [Hl Hk]. rewrite Hl.
  repeat split; assumption.
Qed.

Lemma state_after_previous (max : Z) (k : nat) (prev : LoopState Cache)
    (r : result (Flow Cache)) :
  after max k = Some prev ->
  nth_error (run max) k = Some r ->
  r = body (rand k) prev.
Proof.
  intros Hprev Hr. unfold run_trace in Hr.
  destruct (decode_trace_step _ _ _ _ _ _ _ _ _ _ _ _ _ Hr)
    as [prev' [Hp Heq]].
  simpl in Heq. subst r. f_equal.
  destruct k as [|k]; simpl in Hprev.
  - inversion Hprev; subst. reflexivity.
  - unfold run_trace in Hprev. rewrite Hp in Hprev.
    inversion Hprev. reflexivity.
Qed.

(** X5. Step [k + 1] calls the model on exactly what step [k] left:
    its input ids, the pixel values, its attention mask and its cache
    (the fresh cache at the first step), draws with the [k]-th random
    number, and stores the cache that this call returned. *)
Theorem step_uses_previous_state (max : Z) (k : nat)
    (prev st : LoopState Cache) :
  after max k = Some prev ->
  after max (S k) = Some st ->
  exists outputs scores,
    model (st_input_ids prev) (pixel_values model_inputs)
          (st_attention_mask prev) (st_kv_cache prev) = Ok outputs /\
    last_position (logits outputs) = Ok scores /\
    select_next_token softmax do_sample temperature top_p (rand k) scores
    = Ok (last_token st) /\
    st_kv_cache st = kv_cache outputs.
Proof.
  intros Hprev. unfold state_after at 1.
  destruct (nth_error (run max) k) as [[f|e]|] eqn:En; try discriminate.
  intros H. inversion H; subst st. clear H.
  pose proof (state_after_previous _ _ _ _ Hprev En) as Hb.
  symmetry in Hb. apply loop_body_ok in Hb. exact Hb.
Qed.

(** The content of the mask and of the next input after the j-th
    executed iteration, counted from zero. *)
Lemma decode_trace_nth_content (n step j : nat) (st : LoopState Cache)
    (f : Flow Cache) :
  nth_error (trace n step st) j = Some (Ok f) ->
  match f with
  | Continue st' =>
      st_attention_mask st' = st_attention_mask st ++ repeat 1 (S j) /\
      st_input_ids st' = [last_token st']
  | Break st' =>
      st_attention_mask st' = st_attention_mask st ++ repeat 1 j
  end.
Proof.
  revert step j st. induction n as [|n IH]; intros step j st; simpl.
  - destruct j; discriminate.
  - destruct (body (rand step) st) as [[st1|st1]|e] eqn:Eb.
    + destruct j as [|j]; simpl; [|destruct j; discriminate].
      intros H. inversion H; subst f.
      apply loop_body_break in Eb. destruct Eb as [_ Hm].
      rewrite Hm. simpl. rewrite app_nil_r. reflexivity.
    + pose proof (loop_body_continue _ _ _ _ _ _ _ _ _ _ Eb)
        as [tok [_ [Hg [Hi Hm]]]].
      destruct j as [|j]; simpl.
      * intros H. inversion H; subst f. split; [exact Hm|].
        rewrite (last_token_snoc _ _ _ Hg). exact Hi.
      * intros H. specialize (IH (S step) j st1 H).
        rewrite Hm in IH.
        destruct f as [st'|st']; rewrite <- app_assoc in IH; exact IH.
    + destruct j as [|j]; simpl; [|destruct j; discriminate].
      discriminate.
Qed.

(** X6. After step [k] the attention mask is the prompt's mask
    followed by ones: [k] of them when the step's token is not the stop
    token, in which case the next input is that single token, and
    [k - 1] of them when it is. *)
Theorem mask_is_prompt_mask_then_ones (max : Z) (k : nat)
    (st : LoopState Cache) :
  (1 <= k)%nat ->
  after max k = Some st ->
  (last_token st <> stop_token ->
   st_attention_mask st = attention_mask model_inputs ++ repeat 1 k /\
   st_input_ids st = [last_token st]) /\
  (last_token st = stop_token ->
   st_attention_mask st = attention_mask model_inputs ++ repeat 1 (k - 1)).
Proof.
  intros Hk. destruct k as [|j]; [lia|]. clear Hk.
  unfold state_after at 1.
  destruct (nth_error (run max) j) as [[f|e]|] eqn:En; try discriminate.
  intros H. inversion H; subst st. clear H.
  unfold run_trace in En.
  pose proof (decode_trace_nth _ _ _ _ _ _ _ _ _ _ _ _ _ En) as [_ Hf].
  pose proof (decode_trace_nth_content _ _ _ _ _ En) as Hc.
  destruct f as [st'|st']; cbn [flow_state]; simpl in Hc.
  - destruct Hf as [Hl _]. split; [intros; contradiction|]. intros _.
    replace (S j - 1)%nat with j by lia. exact Hc.
  - destruct Hf as [Hl _]. split; [|intros; contradiction].
    intros _. exact Hc.
Qed.

(** ** What a run returns *)

(** The tokens a finished loop added: one per executed iteration, and
    none but the last can be the stop token. *)
Lemma decode_loop_tokens (n step : nat) (st st' : LoopState Cache) :
  loop n step st = Ok st' ->
  exists new,
    generated_tokens st' = generated_tokens st ++ new /\
    length new = length (trace n step st) /\
    (length new <= n)%nat /\
    (forall i, (S i < length new)%nat -> nth i new 0%nat <> stop_token).
Proof.
  revert step st. induction n as [|n IH]; intros step st; simpl.
  - intros H. inversion H; subst st'. exists [].
    rewrite app_nil_r.
    split; [reflexivity|]. split; [reflexivity|]. split; [simpl; lia|].
    intros i Hi. simpl in Hi. lia.
  - destruct (body (rand step) st) as [[st1|st1]|e] eqn:Eb;
      [| |discriminate].
    + intros H. inversion H; subst st1. clear H.
      apply loop_body_break in Eb. destruct Eb as [Hg _].
      exists [stop_token].
      split; [exact Hg|]. split; [reflexivity|]. split; [simpl; lia|].
      intros i Hi. simpl in Hi. lia.
    + intros H. destruct (IH _ _ H) as [new [Hg [Hlen [Hle Hns]]]].
      apply loop_body_continue in Eb.
      destruct Eb as [tok [Hne [Hg1 _]]].
      exists (tok :: new). rewrite Hg, Hg1, <- app_assoc.
      split; [reflexivity|]. split; [simpl; lia|]. split; [simpl; lia|].
      intros i Hi. simpl in Hi. destruct i as [|i]; [exact Hne|].
      simpl. apply Hns. lia.
Qed.

(** X7. A run that returns gives at least one token and at most
    [max_tokens_to_generate], one per forward pass, and the stop token
    can only be the last of them. *)
Theorem generated_tokens_shape (max : Z) (tokens : list nat) :
  generate_tokens model softmax rand new_cache model_inputs stop_token
    temperature top_p do_sample max = Ok tokens ->
  (1 <= length tokens <= Z.to_nat max)%nat /\
  length (run max) = length tokens /\
  (forall i, (S i < length tokens)%nat -> nth i tokens 0%nat <> stop_token).
Proof.
  unfold generate_tokens, run_trace.
  destruct (loop (Z.to_nat max) 0%nat init) as [st'|e] eqn:El;
    cbn [bind]; [|discriminate].
  destruct (decode_loop_tokens _ _ _ _ El) as [new [Hg [Hlen [Hle Hns]]]].
  simpl in Hg. rewrite Hg. unfold torch_cat.
  destruct new as [|tok new]; [discriminate|].
  intros H. inversion H; subst tokens. clear H.
  split; [simpl in *; lia|]. split; [simpl in *; lia|]. exact Hns.
Qed.

(** X8. When an iteration fails, by the forward pass, by empty scores
    or by the sampler, the loop stops there and the call fails with that
    error: no token generated before it is returned or printed. *)
Theorem failing_step_aborts (max : Z) (j : nat) (e : Error) :
  nth_error (run max) j = Some (Err e) ->
  length (run max) = S j /\
  generate max = Err e /\
  test_inference model softmax rand decode new_cache model_inputs prompt
    stop_token temperature top_p do_sample max = Err e.
Proof.
  unfold run_trace. intros H.
  destruct (decode_loop_error _ _ _ _ _ _ _ _ _ _ _ _ _ H) as [Hl Hlen].
  unfold test_inference, generate_tokens. rewrite Hl.
  repeat split. exact Hlen.
Qed.



End DecodeLoopFacts.

Lemma step_uses_previous_state_witness :
  exists prev st outputs scores,
    demo_state_after [42; 43; 1]%nat 5 1 = Some prev /\
    demo_state_after [42; 43; 1]%nat 5 2 = Some st /\
    scripted_model [42; 43; 1]%nat 50 (st_input_ids prev) tt
      (st_attention_mask prev) (st_kv_cache prev) = Ok outputs /\
    last_position (logits outputs) = Ok scores /\
    select_next_token (fun l => l) false 1 1 0 scores = Ok (last_token st) /\
    st_kv_cache st = kv_cache outputs.
Proof.
  do 2 eexists.
  assert (H1 : demo_state_after [42; 43; 1]%nat 5 1
               = Some {| st_input_ids := [42]%nat;
                         st_attention_mask := [1; 1; 1];
                         st_kv_cache := 1%nat;
                         generated_tokens := [42]%nat |})
    by (vm_compute; reflexivity).
  assert (H2 : demo_state_after [42; 43; 1]%nat 5 2
               = Some {| st_input_ids := [43]%nat;
                         st_attention_mask := [1; 1; 1; 1];
                         st_kv_cache := 2%nat;
                         generated_tokens := [42; 43]%nat |})
    by (vm_compute; reflexivity).
  destruct (step_uses_previous_state (scripted_model [42; 43; 1]%nat 50)
              (fun l => l) (fun _ => 0) 0%nat demo_inputs 1%nat 1 1 false
              5 1 _ _ H1 H2) as [outputs [scores H]].
  exists outputs, scores.
  split; [exact H1|]. split; [exact H2|]. exact H.
Defined.

Lemma mask_is_prompt_mask_then_ones_witness :
  exists st,
    demo_state_after [42; 43; 1]%nat 5 2 = Some st /\
    (last_token st <> 1%nat ->
     st_attention_mask st = attention_mask demo_inputs ++ repeat 1 2 /\
     st_input_ids st = [last_token st]) /\
    (last_token st = 1%nat ->
     st_attention_mask st = attention_mask demo_inputs ++ repeat 1 (2 - 1)).
Proof.
  eexists. split.
  - vm_compute. reflexivity.
  - apply (mask_is_prompt_mask_then_ones (scripted_model [42; 43; 1]%nat 50)
             (fun l => l) (fun _ => 0) 0%nat demo_inputs 1%nat 1 1 false
             5 2).
    + lia.
    + vm_compute. reflexivity.
Defined.

Lemma generated_tokens_shape_witness :
  (1 <= length [42; 43; 1]%nat <= Z.to_nat 5)%nat /\
  length (demo_trace [42; 43; 1]%nat 5) = length [42; 43; 1]%nat /\
  (forall i, (S i < length [42; 43; 1]%nat)%nat ->
             nth i [42; 43; 1]%nat 0%nat <> 1%nat).
Proof.
  apply (generated_tokens_shape (scripted_model [42; 43; 1]%nat 50)
           (fun l => l) (fun _ => 0) 0%nat demo_inputs 1%nat 1 1 false
           5 [42; 43; 1]%nat).
  vm_compute. reflexivity.
Defined.

Lemma failing_step_aborts_witness :
  length (run_trace (flaky_model 2 [42; 43; 44; 45]%nat 50) (fun l => l)
            (fun _ => 0) 0%nat demo_inputs 1%nat 1 1 false 4) = 3%nat /\
  generate_tokens (flaky_model 2 [42; 43; 44; 45]%nat 50) (fun l => l)
    (fun _ => 0) 0%nat demo_inputs 1%nat 1 1 false 4 = Err ModelFailure /\
  test_inference (flaky_model 2 [42; 43; 44; 45]%nat 50) (fun l => l)
    (fun _ => 0) (fun _ => EmptyString) 0%nat demo_inputs EmptyString
    1%nat 1 1 false 4 = Err ModelFailure.
Proof.
  apply (failing_step_aborts (flaky_model 2 [42; 43; 44; 45]%nat 50)
           (fun l => l) (fun _ => 0) 0%nat demo_inputs 1%nat 1 1 false
           (fun _ => EmptyString) EmptyString 4 2 ModelFailure).
  vm_compute. reflexivity.
Defined.


(** ** Runs with well-behaved collaborators *)

Section WellBehavedRun.

Context {Cache Pixels : Type}.
Variable model : list nat -> Pixels -> list Q -> Cache
                 -> result (ModelOutput Cache).
Variable softmax : list Q -> list Q.
Variable rand : nat -> Q.
Variable new_cache : Cache.
Variable model_inputs : ModelInputs Pixels.
Variable stop_token : nat.
Variables temperature top_p : Q.
Variable do_sample : bool.
Variable vocab : nat.

(** The forward pass returns scores over [vocab >= 1] tokens at its last
    position; when sampling, [softmax] yields a probability distribution
    of the length of its input, [top_p] is not negative and the draws
    are in [0, 1). *)
Hypothesis vocab_pos : (1 <= vocab)%nat.
Hypothesis model_ok :
  forall ids mask cache,
  exists outputs scores,
    model ids (pixel_values model_inputs) mask cache = Ok outputs /\
    last_position (logits outputs) = Ok scores /\
    length scores = vocab.
Hypothesis sampling_ok :
  do_sample = true ->
  (forall l, l <> [] ->
             nonneg (softmax l) /\ Qsum (softmax l) == 1 /\
             length (softmax l) = length l) /\
  0 <= top_p /\
  (forall k, 0 <= rand k /\ rand k < 1).




End WellBehavedRun.



